(** * bmstu::optional<T>: a shallow embedding and its verification

    Source: tasks/bmstu_optional/task_optional/bmstu_optional.h

    The class keeps a raw aligned buffer [data_] and a flag
    [is_initialized_].  Objects of type [T] are started in the buffer with
    placement new and ended with an explicit destructor call.  The model
    below keeps both members apart (the buffer is not derived from the
    flag), threads a store of optional objects addressed by identity, and
    records every placement new and every destructor call in a trace.

    Optionals are passed by address, as [this] and [other] are, so that
    [this != &other] and writes to a moved-from [other] mean what they mean
    in the header.  A [T] passed as [const T&], [T&&] or [Args&&...] is
    passed as its value: the argument is an object of the caller and not
    the object in the buffer the call works on. *)

From stdpp Require Import base option list strings gmap fin_maps.
From Stdlib Require Import ZArith.

(** Identity (address) of an optional object: [this], [&other]. *)
Abbreviation loc := positive.

(** [struct nullopt_t { constexpr explicit nullopt_t(int) {} };] and
    [inline constexpr nullopt_t nullopt{0};].  No member of [optional] takes
    one. *)
Inductive nullopt_t := Nullopt_t (n : Z).
Definition nullopt : nullopt_t := Nullopt_t 0.

(** ** The element type

    [T] is a template parameter; what the class uses of it are its special
    member functions.  Each of them may throw (an [E]), the destructor
    apart, which is taken not to throw; a throwing assignment or move
    reports the states it leaves behind. *)
Class TypeT (T Args E : Type) := {
  (** [T(const T&)] *)
  T_copy : T -> E + T;
  (** [T(T&&)]: the new object and what is left of the source *)
  T_move : T -> E * T + T * T;
  (** [T(std::forward<Args>(args)...)] *)
  T_make : Args -> E + T;
  (** [lhs = rhs]: the left operand afterwards *)
  T_assign : T -> T -> E * T + T;
  (** [lhs = std::move(rhs)]: both operands afterwards *)
  T_move_assign : T -> T -> E * (T * T) + T * T
}.

Section Optional.
Context {T Args E : Type} `{!TypeT T Args E}.

(** ** Data model *)

(** [class optional]: the two private members.  [data_] lists the [T]
    objects that were started in the buffer and whose destructor has not
    run, newest first: [[]] is a raw buffer, [[v]] a buffer with exactly one
    live object, and a longer list a buffer that was constructed into again
    without destroying what was there. *)
Record optional := Optional {
  data_ : list T;
  is_initialized_ : bool
}.

(** [reinterpret_cast<T*>(data_)]: a pointer into the buffer of the optional
    at [owner].  The cast checks nothing. *)
Record Tptr := InBuffer { owner : loc }.

(** Lifetime events of the objects in the buffers. *)
Inductive event :=
| EvNew (l : loc) (v : T)   (* placement new into the buffer of [l] *)
| EvDel (l : loc) (v : T).  (* [~T()] on the object in the buffer of [l] *)

Record world := World {
  heap : gmap loc optional;
  trace : list event          (* oldest first *)
}.

(** [class bad_optional_access : public std::exception], thrown by the
    class itself, and whatever leaves a member function of [T]: the class
    catches nothing, so an exception of [T] passes through it as it is. *)
Inductive exn :=
| bad_optional_access
| T_exception (e : E).

Definition what (x : exn) : option string :=
  match x with
  | bad_optional_access => Some "Bad optional access"%string
  | T_exception _ => None
  end.

Inductive outcome (A : Type) :=
| Ret (a : A) (w : world)        (* normal return *)
| Throw (x : exn) (w : world)    (* an exception leaves the call *)
| Terminate                      (* an exception met [noexcept] *)
| Undefined.                     (* undefined behaviour *)
Arguments Ret {A} a w.
Arguments Throw {A} x w.
Arguments Terminate {A}.
Arguments Undefined {A}.

Definition M (A : Type) : Type := world -> outcome A.

Definition ret {A} (a : A) : M A := fun w => Ret a w.

Definition bind {A B} (m : M A) (f : A -> M B) : M B := fun w =>
  match m w with
  | Ret a w' => f a w'
  | Throw x w' => Throw x w'
  | Terminate => Terminate
  | Undefined => Undefined
  end.

#[local] Notation "x <- m ;; k" := (bind m (fun x => k))
  (at level 100, m at next level, k at level 200, right associativity,
   only parsing).
#[local] Notation "m ;; k" := (bind m (fun _ => k))
  (at level 100, k at level 200, right associativity, only parsing).

(** An empty statement or an empty branch. *)
Definition skip : M unit := ret tt.

Definition throw {A} (x : exn) : M A := fun w => Throw x w.
Definition undefined {A} : M A := fun _ => Undefined.

(** A function declared [noexcept]: an escaping exception calls
    [std::terminate]. *)
Definition noexcept {A} (m : M A) : M A := fun w =>
  match m w with
  | Throw _ _ => Terminate
  | r => r
  end.

(** ** Store primitives *)

Definition get_object (this : loc) : M optional := fun w =>
  match heap w !! this with
  | Some o => Ret o w
  | None => Undefined
  end.

Definition set_object (this : loc) (o : optional) : M unit := fun w =>
  Ret tt (World (<[this := o]> (heap w)) (trace w)).

Definition log (e : event) : M unit := fun w =>
  Ret tt (World (heap w) (trace w ++ [e])).

Definition get_is_initialized_ (this : loc) : M bool :=
  o <- get_object this;; ret (is_initialized_ o).

Definition set_is_initialized_ (this : loc) (b : bool) : M unit :=
  o <- get_object this;; set_object this (Optional (data_ o) b).

(** Reading and writing the object a [T*] points to. *)
Definition load (p : Tptr) : M T :=
  o <- get_object (owner p);;
  match data_ o with
  | v :: _ => ret v
  | [] => undefined
  end.

Definition store (p : Tptr) (v : T) : M unit :=
  o <- get_object (owner p);;
  match data_ o with
  | _ :: rest => set_object (owner p) (Optional (v :: rest) (is_initialized_ o))
  | [] => undefined
  end.

(** The object [new (data_) T(...)] has built starts to live in the buffer,
    whatever the buffer held. *)
Definition begin_lifetime (p : Tptr) (v : T) : M unit :=
  o <- get_object (owner p);;
  set_object (owner p) (Optional (v :: data_ o) (is_initialized_ o));;
  log (EvNew (owner p) v).

(** [p->~T()].  The destructor of [T] is taken to return, as a destructor
    does unless it is declared [noexcept(false)]: the model has no case for
    one that throws. *)
Definition destroy_at (p : Tptr) : M unit :=
  o <- get_object (owner p);;
  match data_ o with
  | v :: rest =>
      set_object (owner p) (Optional rest (is_initialized_ o));;
      log (EvDel (owner p) v)
  | [] => undefined
  end.

(** [new (p) T(value)] with [value] a [const T&] *)
Definition new_copy (p : Tptr) (value : T) : M unit :=
  match T_copy value with
  | inr v => begin_lifetime p v
  | inl e => throw (T_exception e)
  end.

(** [new (p) T(std::move(value))] with [value] an argument of the caller;
    returns what is left of it. *)
Definition new_move (p : Tptr) (value : T) : M T :=
  match T_move value with
  | inr (v, value') => begin_lifetime p v;; ret value'
  | inl (e, _) => throw (T_exception e)
  end.

(** [new (p) T(std::move( *q ))] with the source an object in a buffer. *)
Definition new_move_at (p q : Tptr) : M unit :=
  src <- load q;;
  match T_move src with
  | inr (v, src') => store q src';; begin_lifetime p v
  | inl (e, src') => store q src';; throw (T_exception e)
  end.

(** [new (p) T(std::forward<Args>(args)...)] *)
Definition new_args (p : Tptr) (args : Args) : M unit :=
  match T_make args with
  | inr v => begin_lifetime p v
  | inl e => throw (T_exception e)
  end.

(** [*p = rhs] *)
Definition assign_at (p : Tptr) (rhs : T) : M unit :=
  lhs <- load p;;
  match T_assign lhs rhs with
  | inr lhs' => store p lhs'
  | inl (e, lhs') => store p lhs';; throw (T_exception e)
  end.

(** [*p = std::move(value)] with [value] an argument of the caller *)
Definition move_assign_at (p : Tptr) (value : T) : M T :=
  lhs <- load p;;
  match T_move_assign lhs value with
  | inr (lhs', value') => store p lhs';; ret value'
  | inl (e, (lhs', _)) => store p lhs';; throw (T_exception e)
  end.

(** [*p = std::move( *q )] *)
Definition move_assign_between (p q : Tptr) : M unit :=
  rhs <- load q;;
  lhs <- load p;;
  match T_move_assign lhs rhs with
  | inr (lhs', rhs') => store p lhs';; store q rhs'
  | inl (e, (lhs', rhs')) => store p lhs';; store q rhs';; throw (T_exception e)
  end.

(** A constructor: the flag is initialised from the member initialiser list
    ([data_] is left raw), then the body runs.  When the body throws the
    object never existed.  Constructing where an object already lives is
    outside the model. *)
Definition constructor {A} (this : loc) (init : M bool) (body : M A) : M A :=
  fun w =>
    match heap w !! this with
    | Some _ => Undefined
    | None =>
        match init w with
        | Ret b w0 =>
            match body (World (<[this := Optional [] b]> (heap w0)) (trace w0)) with
            | Throw x w' => Throw x (World (delete this (heap w')) (trace w'))
            | r => r
            end
        | Throw x w0 => Throw x w0
        | Terminate => Terminate
        | Undefined => Undefined
        end
    end.

(** The storage of the optional goes away. *)
Definition deallocate (this : loc) : M unit := fun w =>
  match heap w !! this with
  | Some _ => Ret tt (World (delete this (heap w)) (trace w))
  | None => Undefined
  end.

(** ** The member functions

    In the order of the header, but for the accessors and [reset], which
    come before the members that call them. *)

(** [optional() noexcept : is_initialized_(false) {}] *)
Definition optional_ctor (this : loc) : M unit :=
  noexcept (constructor this (ret false) skip).

(** [optional(const T& value) : is_initialized_(true)] *)
Definition optional_ctor_copy_T (this : loc) (value : T) : M unit :=
  constructor this (ret true) (new_copy (InBuffer this) value).

(** [optional(T&& value) noexcept : is_initialized_(true)]; returns what is
    left of [value]. *)
Definition optional_ctor_move_T (this : loc) (value : T) : M T :=
  noexcept (constructor this (ret true) (new_move (InBuffer this) value)).

(** [T& operator*() &] *)
Definition operator_star (this : loc) : M Tptr :=
  ret (InBuffer this).

(** [const T& operator*() const&] *)
Definition operator_star_const (this : loc) : M Tptr :=
  ret (InBuffer this).

(** [T* operator->()] *)
Definition operator_arrow (this : loc) : M Tptr :=
  ret (InBuffer this).

(** [const T* operator->() const] *)
Definition operator_arrow_const (this : loc) : M Tptr :=
  ret (InBuffer this).

(** [T&& operator*() &&] *)
Definition operator_star_rvalue (this : loc) : M Tptr :=
  ret (InBuffer this).

(** [optional(const optional& other) : is_initialized_(other.is_initialized_)] *)
Definition optional_ctor_copy (this other : loc) : M unit :=
  constructor this (get_is_initialized_ other)
    (ob <- get_is_initialized_ other;;
     if ob then
       q <- operator_star_const other;;
       v <- load q;;
       new_copy (InBuffer this) v
     else skip).

(** [optional(optional&& other) noexcept : is_initialized_(other.is_initialized_)] *)
Definition optional_ctor_move (this other : loc) : M unit :=
  noexcept (constructor this (get_is_initialized_ other)
    (ob <- get_is_initialized_ other;;
     if ob then
       q <- operator_star other;;
       new_move_at (InBuffer this) q
     else skip)).

(** [void reset()] *)
Definition reset (this : loc) : M unit :=
  b <- get_is_initialized_ this;;
  if b then
    destroy_at (InBuffer this);;
    set_is_initialized_ this false
  else skip.

(** [optional& operator=(const T& value)] *)
Definition operator_assign_copy_T (this : loc) (value : T) : M loc :=
  b <- get_is_initialized_ this;;
  (if b then
     p <- operator_star this;;
     assign_at p value
   else
     new_copy (InBuffer this) value;;
     set_is_initialized_ this true);;
  ret this.

(** [optional& operator=(T&& value)] *)
Definition operator_assign_move_T (this : loc) (value : T) : M (loc * T) :=
  b <- get_is_initialized_ this;;
  value' <- (if b then
              p <- operator_star this;;
              move_assign_at p value
            else
              value' <- new_move (InBuffer this) value;;
              set_is_initialized_ this true;;
              ret value');;
  ret (this, value').

(** [optional& operator=(const optional& other)] *)
Definition operator_assign_copy (this other : loc) : M loc :=
  (if decide (this ≠ other) then
     ob <- get_is_initialized_ other;;
     if ob then
       b <- get_is_initialized_ this;;
       if b then
         q <- operator_star_const other;;
         p <- operator_star this;;
         rhs <- load q;;
         assign_at p rhs
       else
         q <- operator_star_const other;;
         v <- load q;;
         new_copy (InBuffer this) v;;
         set_is_initialized_ this true
     else reset this
   else skip);;
  ret this.

(** [optional& operator=(optional&& other) noexcept] *)
Definition operator_assign_move (this other : loc) : M loc :=
  noexcept (
    (if decide (this ≠ other) then
       ob <- get_is_initialized_ other;;
       if ob then
         b <- get_is_initialized_ this;;
         if b then
           q <- operator_star other;;
           p <- operator_star this;;
           move_assign_between p q
         else
           q <- operator_star other;;
           new_move_at (InBuffer this) q;;
           set_is_initialized_ this true
       else reset this
     else skip);;
    ret this).

(** [T& value() &] *)
Definition value (this : loc) : M Tptr :=
  b <- get_is_initialized_ this;;
  if negb b then throw bad_optional_access
  else operator_star this.

(** [const T& value() const&] *)
Definition value_const (this : loc) : M Tptr :=
  b <- get_is_initialized_ this;;
  if negb b then throw bad_optional_access
  else operator_star_const this.

(** [template <typename... Args> void emplace(Args&&... args)] *)
Definition emplace (this : loc) (args : Args) : M unit :=
  reset this;;
  new_args (InBuffer this) args;;
  set_is_initialized_ this true.

(** [~optional()] *)
Definition optional_dtor (this : loc) : M unit :=
  reset this;;
  deallocate this.

(** [bool has_value() const noexcept] *)
Definition has_value (this : loc) : M bool :=
  noexcept (get_is_initialized_ this).

(** ** Calls

    Every public member function as a call a client can make; [run] drops
    the value the call returns. *)
Inductive call :=
| Ctor (this : loc)
| CtorCopyT (this : loc) (value : T)
| CtorMoveT (this : loc) (value : T)
| CtorCopy (this other : loc)
| CtorMove (this other : loc)
| AssignCopyT (this : loc) (value : T)
| AssignMoveT (this : loc) (value : T)
| AssignCopy (this other : loc)
| AssignMove (this other : loc)
| Star (this : loc)
| StarConst (this : loc)
| Arrow (this : loc)
| ArrowConst (this : loc)
| StarRvalue (this : loc)
| Value (this : loc)
| ValueConst (this : loc)
| Emplace (this : loc) (args : Args)
| Reset (this : loc)
| Dtor (this : loc)
| HasValue (this : loc).

Definition discard {A} (m : M A) : M unit := _ <- m;; ret tt.

Definition run (c : call) : M unit :=
  match c with
  | Ctor this => optional_ctor this
  | CtorCopyT this value => optional_ctor_copy_T this value
  | CtorMoveT this value => discard (optional_ctor_move_T this value)
  | CtorCopy this other => optional_ctor_copy this other
  | CtorMove this other => optional_ctor_move this other
  | AssignCopyT this value => discard (operator_assign_copy_T this value)
  | AssignMoveT this value => discard (operator_assign_move_T this value)
  | AssignCopy this other => discard (operator_assign_copy this other)
  | AssignMove this other => discard (operator_assign_move this other)
  | Star this => discard (operator_star this)
  | StarConst this => discard (operator_star_const this)
  | Arrow this => discard (operator_arrow this)
  | ArrowConst this => discard (operator_arrow_const this)
  | StarRvalue this => discard (operator_star_rvalue this)
  | Value this => discard (value this)
  | ValueConst this => discard (value_const this)
  | Emplace this args => emplace this args
  | Reset this => reset this
  | Dtor this => optional_dtor this
  | HasValue this => discard (has_value this)
  end.

(** ** The invariants of the data model *)

(** The flag of the optional at [l]; where there is no optional there is
    no object either. *)
Definition flag_at (w : world) (l : loc) : bool :=
  match heap w !! l with
  | Some o => is_initialized_ o
  | None => false
  end.

(** The flag is set exactly when one object lives in the buffer, and clear
    exactly when none does. *)
Definition storage_ok (o : optional) : Prop :=
  (is_initialized_ o = true <-> exists v, data_ o = [v]) /\
  (is_initialized_ o = false <-> data_ o = []).

(** Replays the lifetime events of the buffer of [l]: [None] as soon as an
    object is constructed into a buffer that holds a live one, or a
    destructor runs on a buffer that holds none; otherwise whether the buffer
    holds a live object at the end. *)
Fixpoint replay (l : loc) (live : bool) (tr : list event) : option bool :=
  match tr with
  | [] => Some live
  | EvNew l' _ :: tr' =>
      if decide (l' = l)
      then if live then None else replay l true tr'
      else replay l live tr'
  | EvDel l' _ :: tr' =>
      if decide (l' = l)
      then if live then replay l false tr' else None
      else replay l live tr'
  end.

Definition Inv (w : world) : Prop :=
  forall l,
    (forall o, heap w !! l = Some o -> storage_ok o) /\
    replay l false (trace w) = Some (flag_at w l).

(** No buffer is constructed into twice without a destructor call on it in
    between. *)
Definition never_twice (tr : list event) : Prop :=
  forall l tr1 v1 mid v2 tr2,
    tr = tr1 ++ EvNew l v1 :: mid ++ EvNew l v2 :: tr2 ->
    exists u, EvDel l u ∈ mid.

(** What a call needs to be a call at all: a constructor runs on storage that
    holds no optional yet, a member function on an optional that exists, and
    so does the [other] they read.  The unchecked accessors only compute an
    address. *)
Definition callable (c : call) (w : world) : Prop :=
  match c with
  | Ctor this | CtorCopyT this _ | CtorMoveT this _ => heap w !! this = None
  | CtorCopy this other | CtorMove this other =>
      heap w !! this = None /\ is_Some (heap w !! other)
  | AssignCopy this other | AssignMove this other =>
      is_Some (heap w !! this) /\ is_Some (heap w !! other)
  | Star _ | StarConst _ | Arrow _ | ArrowConst _ | StarRvalue _ => True
  | AssignCopyT this _ | AssignMoveT this _ | Value this | ValueConst this
  | Emplace this _ | Reset this | Dtor this | HasValue this =>
      is_Some (heap w !! this)
  end.

(** The worlds a client can get to with the public interface alone, starting
    with no optional at all; a caught exception lets the client go on. *)
Inductive reachable : world -> Prop :=
| reach_start : reachable (World ∅ [])
| reach_ret c w w' : reachable w -> run c w = Ret tt w' -> reachable w'
| reach_throw c w x w' : reachable w -> run c w = Throw x w' -> reachable w'.

(** A computation keeps the invariant, whether it returns or throws. *)
Definition preserves (m : M unit) : Prop :=
  forall w, Inv w ->
    match m w with
    | Ret _ w' | Throw _ w' => Inv w'
    | Terminate | Undefined => True
    end.

(** The checked accessors among the calls. *)
Definition is_value (c : call) : bool :=
  match c with
  | Value _ | ValueConst _ => true
  | _ => false
  end.

(** The optionals a call may write to: its own, and the one it moves from. *)
Definition writes (c : call) : list loc :=
  match c with
  | Ctor this | CtorCopyT this _ | CtorMoveT this _ | CtorCopy this _
  | AssignCopyT this _ | AssignMoveT this _ | AssignCopy this _
  | Emplace this _ | Reset this | Dtor this => [this]
  | CtorMove this other | AssignMove this other => [this; other]
  | Star _ | StarConst _ | Arrow _ | ArrowConst _ | StarRvalue _
  | Value _ | ValueConst _ | HasValue _ => []
  end.

(** ** Notions for the properties beyond the invariants *)

(** The optional a call is made on. *)
Definition this_of (c : call) : loc :=
  match c with
  | Ctor this | CtorCopyT this _ | CtorMoveT this _ | CtorCopy this _
  | CtorMove this _ | AssignCopyT this _ | AssignMoveT this _
  | AssignCopy this _ | AssignMove this _ | Star this | StarConst this
  | Arrow this | ArrowConst this | StarRvalue this | Value this
  | ValueConst this | Emplace this _ | Reset this | Dtor this
  | HasValue this => this
  end.

(** The buffer an event is about. *)
Definition event_loc (e : event) : loc :=
  match e with
  | EvNew l _ | EvDel l _ => l
  end.

(** How many objects were constructed into the buffer of [l], and how many
    destructors ran on it. *)
Fixpoint constructions (l : loc) (tr : list event) : nat :=
  match tr with
  | [] => 0
  | EvNew l' _ :: tr' =>
      (if decide (l' = l) then 1 else 0) + constructions l tr'
  | EvDel _ _ :: tr' => constructions l tr'
  end.

Fixpoint destructions (l : loc) (tr : list event) : nat :=
  match tr with
  | [] => 0
  | EvNew _ _ :: tr' => destructions l tr'
  | EvDel l' _ :: tr' =>
      (if decide (l' = l) then 1 else 0) + destructions l tr'
  end.

(** What of an optional a call on another optional can see change: nothing
    but the value of the object a move leaves behind. *)
Definition shape (o : optional) : nat * bool :=
  (length (data_ o), is_initialized_ o).

(** The members with no expression of [T] that can throw in their body and
    no [throw] of their own. *)
Definition nothrow (c : call) : bool :=
  match c with
  | Ctor _ | Star _ | StarConst _ | Arrow _ | ArrowConst _ | StarRvalue _
  | Reset _ | Dtor _ | HasValue _ => true
  | _ => false
  end.

(** The five unchecked accessors. *)
Definition unchecked_accessors : list (loc -> M Tptr) :=
  [operator_star; operator_star_const; operator_arrow; operator_arrow_const;
   operator_star_rvalue].

(** An element type whose move operations do not throw, and one none of
    whose operations throws. *)
Definition T_moves_nothrow : Prop :=
  (forall v, exists p, T_move v = inr p) /\
  (forall lhs rhs, exists p, T_move_assign lhs rhs = inr p).

Definition T_never_throws : Prop :=
  T_moves_nothrow /\
  (forall v, exists v', T_copy v = inr v') /\
  (forall args, exists v, T_make args = inr v) /\
  (forall lhs rhs, exists lhs', T_assign lhs rhs = inr lhs').

(** * Proofs *)

(** ** Automation *)

Ltac unfold_ops :=
  unfold run, discard, optional_ctor, optional_ctor_copy_T, optional_ctor_move_T,
    optional_ctor_copy, optional_ctor_move, operator_assign_copy_T,
    operator_assign_move_T, operator_assign_copy, operator_assign_move,
    value, value_const, emplace, optional_dtor, has_value, reset,
    operator_star, operator_star_const, operator_arrow, operator_arrow_const,
    operator_star_rvalue, constructor, deallocate, new_copy, new_move,
    new_move_at, new_args, assign_at, move_assign_at, move_assign_between,
    destroy_at, begin_lifetime, store, load, set_is_initialized_,
    get_is_initialized_, log, set_object, get_object, noexcept, skip, throw,
    undefined, bind, ret in *.

(** Runs a call symbolically: every lookup, flag test and outcome of a member
    function of [T] becomes a case. *)
Ltac crunch := repeat (simplify_map_eq/=; try done; try case_match).

Ltac destruct_objects :=
  repeat match goal with a : optional |- _ => destruct a end;
  simpl in *; simplify_eq.

Ltac split_lookups :=
  repeat (rewrite ?lookup_insert, ?lookup_delete in *; simpl in *;
          try case_decide; simplify_eq/=).

(** ** The trace *)

Lemma replay_app l b (tr1 tr2 : list event) :
  replay l b (tr1 ++ tr2) =
  match replay l b tr1 with
  | Some b' => replay l b' tr2
  | None => None
  end.
Proof.
  revert b. induction tr1 as [|[l' v|l' v] tr1 IH]; intros b; simpl; [done| |].
  - case_decide; [destruct b|]; auto.
  - case_decide; [destruct b|]; auto.
Qed.

Lemma replay_live_to_dead l (mid : list event) :
  replay l true mid = Some false -> exists u, EvDel l u ∈ mid.
Proof.
  induction mid as [|[l' v|l' v] mid IH]; simpl; [done| |].
  - case_decide; [done|]. intros Hr. destruct (IH Hr) as [u Hu].
    exists u. by apply elem_of_cons; right.
  - case_decide as Hl.
    + intros _. subst l'. exists v. by apply elem_of_cons; left.
    + intros Hr. destruct (IH Hr) as [u Hu].
      exists u. by apply elem_of_cons; right.
Qed.

Lemma replay_never_twice (tr : list event) :
  (forall l, is_Some (replay l false tr)) -> never_twice tr.
Proof.
  intros Hall l tr1 v1 mid v2 tr2 ->.
  destruct (Hall l) as [b Hb].
  rewrite replay_app in Hb.
  destruct (replay l false tr1) as [b1|]; [|done].
  simpl in Hb. rewrite decide_True in Hb by done.
  destruct b1; [done|].
  rewrite replay_app in Hb.
  destruct (replay l true mid) as [b2|] eqn:Hmid; [|done].
  simpl in Hb. rewrite decide_True in Hb by done.
  destruct b2; [done|].
  by apply replay_live_to_dead.
Qed.

(** ** The invariant *)

Lemma Inv_start : Inv (World ∅ []).
Proof. intros l. split; [intros o Ho; simpl in Ho; by rewrite lookup_empty in Ho|done]. Qed.

Lemma Inv_storage h tr l o :
  Inv (World h tr) -> h !! l = Some o -> storage_ok o.
Proof. intros HI Hl. by apply (HI l). Qed.

Lemma Inv_never_twice w : Inv w -> never_twice (trace w).
Proof.
  intros HI. apply replay_never_twice. intros l.
  destruct (HI l) as [_ ->]. by eexists.
Qed.

(** A call changes the store and appends events; the invariant survives
    when every object of the new store is well formed and the new events
    take every buffer from its old flag to its new one. *)
Lemma Inv_step h tr h' tr' evs :
  Inv (World h tr) ->
  tr' = tr ++ evs ->
  (forall l o, h' !! l = Some o -> storage_ok o) ->
  (forall l, replay l (flag_at (World h tr) l) evs
             = Some (flag_at (World h' tr') l)) ->
  Inv (World h' tr').
Proof.
  intros HI -> Hs Hr l. split; [apply Hs|].
  simpl. rewrite replay_app. destruct (HI l) as [_ Hl].
  simpl in Hl. rewrite Hl. apply Hr.
Qed.

Lemma storage_ok_one v : storage_ok (Optional [v] true).
Proof. split; split; simpl; eauto; done. Qed.

Lemma storage_ok_none : storage_ok (Optional [] false).
Proof. split; split; simpl; try done. by intros [? ?]. Qed.

Lemma storage_ok_inv d b :
  storage_ok (Optional d b) ->
  (b = true /\ exists v, d = [v]) \/ (b = false /\ d = []).
Proof.
  intros [[H1 _] [H2 _]]. simpl in *. destruct b; [left|right]; auto.
Qed.

(** Every object met in the store is well formed, so its flag decides what
    its buffer holds. *)
Ltac saturate HI :=
  repeat match goal with
  | H : _ !! ?x = Some (Optional ?d ?b) |- _ =>
      lazymatch goal with
      | _ : storage_ok (Optional d b) |- _ => fail
      | _ => pose proof (proj1 (HI x) _ H)
      end
  end;
  repeat match goal with
  | Hs : storage_ok (Optional _ _) |- _ =>
      apply storage_ok_inv in Hs; destruct Hs as [[? [? ?]]|[? ?]]; simplify_eq
  end.

Ltac inv_goal HI :=
  eapply Inv_step;
  [ exact HI
  | rewrite <- ?app_assoc; first [reflexivity | symmetry; apply app_nil_r]
  | intros ? ? ?; split_lookups;
    eauto using storage_ok_one, storage_ok_none, Inv_storage
  | intros ?; unfold flag_at; simpl; split_lookups;
    repeat (case_match; simplify_eq/=); try done ].

Ltac preserve :=
  let HI := fresh "HI" in
  intros HI;
  match goal with w : world |- _ => destruct w as [h tr] end;
  unfold_ops; crunch; try exact HI;
  destruct_objects; saturate HI; inv_goal HI.

Lemma constructors_preserve c :
  match c with
  | Ctor _ | CtorCopyT _ _ | CtorMoveT _ _ | CtorCopy _ _ | CtorMove _ _ => preserves (run c)
  | _ => True
  end.
Proof. destruct c; try done; intros w; preserve. Qed.

Lemma assignments_preserve c :
  match c with
  | AssignCopyT _ _ | AssignMoveT _ _ | AssignCopy _ _ | AssignMove _ _ => preserves (run c)
  | _ => True
  end.
Proof. destruct c; try done; intros w; preserve. Qed.

Lemma accessors_preserve c :
  match c with
  | Star _ | StarConst _ | Arrow _ | ArrowConst _ | StarRvalue _
  | Value _ | ValueConst _ | HasValue _ => preserves (run c)
  | _ => True
  end.
Proof. destruct c; try done; intros w; preserve. Qed.

Lemma modifiers_preserve c :
  match c with
  | Emplace _ _ | Reset _ | Dtor _ => preserves (run c)
  | _ => True
  end.
Proof. destruct c; try done; intros w; preserve. Qed.

Lemma run_preserves c : preserves (run c).
Proof.
  pose proof (constructors_preserve c). pose proof (assignments_preserve c).
  pose proof (accessors_preserve c). pose proof (modifiers_preserve c).
  by destruct c.
Qed.

Lemma run_defined c w : Inv w -> callable c w -> run c w <> Undefined.
Proof.
  intros HI Hc. destruct w as [h tr].
  destruct c; simpl in Hc; unfold is_Some in Hc; destruct_and?;
    repeat match goal with H : exists _, _ |- _ => destruct H end;
    unfold_ops; crunch; destruct_objects; saturate HI.
Qed.

Lemma reachable_Inv w : reachable w -> Inv w.
Proof.
  induction 1 as [|c w w' _ IH Hrun|c w x w' _ IH Hrun].
  - apply Inv_start.
  - pose proof (run_preserves c w IH) as Hp. by rewrite Hrun in Hp.
  - pose proof (run_preserves c w IH) as Hp. by rewrite Hrun in Hp.
Qed.

(** C1.  Every call of the public interface, made in a world where each
    optional has its flag set exactly when one object lives in its buffer
    (and clear exactly when none does) and where no buffer was ever
    constructed into twice without a destructor call in between, ends, by
    return or by exception, in such a world again; and it has no undefined
    behaviour when the optionals it is called on exist. *)
Theorem optional_invariant (c : call) (w : world) :
  Inv w ->
  (callable c w -> run c w <> Undefined) /\
  match run c w with
  | Ret _ w' | Throw _ w' => Inv w' /\ never_twice (trace w')
  | Terminate | Undefined => True
  end.
Proof.
  intros HI. split; [by apply run_defined|].
  pose proof (run_preserves c w HI) as Hp.
  destruct (run c w); auto using Inv_never_twice.
Qed.

(** ** What each member function computes *)

Ltac use_hyps :=
  repeat match goal with
  | H : T_copy _ = _ |- _ => rewrite !H
  | H : T_move _ = _ |- _ => rewrite !H
  | H : T_make _ = _ |- _ => rewrite !H
  | H : T_assign _ _ = _ |- _ => rewrite !H
  | H : T_move_assign _ _ = _ |- _ => rewrite !H
  end.

(** Two stores are equal when they agree at every address. *)
Ltac heap_eq :=
  apply map_eq; intros ?;
  repeat (rewrite ?lookup_insert, ?lookup_delete;
          try case_decide; simplify_eq);
  try done.

Ltac world_eq :=
  lazymatch goal with
  | |- Ret _ _ = Ret _ _ => f_equal
  | |- Throw _ _ = Throw _ _ => f_equal
  | |- _ => idtac
  end;
  lazymatch goal with
  | |- World _ _ = World _ _ =>
      f_equal;
      lazymatch goal with
      | |- @eq (gmap _ _) _ _ => heap_eq
      | |- _ => rewrite <- ?app_assoc, ?app_nil_r; try done
      end
  | |- _ => idtac
  end.

Ltac compute_call :=
  intros;
  repeat match goal with w : world |- _ => destruct w as [? ?] end;
  simpl in *; unfold_ops; use_hyps; crunch; use_hyps; crunch;
  try done; world_eq.

Lemma has_value_eq this w o :
  heap w !! this = Some o -> has_value this w = Ret (is_initialized_ o) w.
Proof. compute_call. Qed.

Lemma load_eq this w v d b :
  heap w !! this = Some (Optional (v :: d) b) ->
  load (InBuffer this) w = Ret v w.
Proof. compute_call. Qed.

Lemma value_empty this w d :
  heap w !! this = Some (Optional d false) ->
  value this w = Throw bad_optional_access w /\
  value_const this w = Throw bad_optional_access w.
Proof. split; compute_call. Qed.

Lemma value_engaged this w d :
  heap w !! this = Some (Optional d true) ->
  value this w = Ret (InBuffer this) w /\
  value_const this w = Ret (InBuffer this) w.
Proof. split; compute_call. Qed.

Lemma reset_engaged this w v :
  heap w !! this = Some (Optional [v] true) ->
  reset this w =
  Ret tt (World (<[this := Optional [] false]> (heap w))
                (trace w ++ [EvDel this v])).
Proof. compute_call. Qed.

Lemma reset_empty this w d :
  heap w !! this = Some (Optional d false) ->
  reset this w = Ret tt w.
Proof. compute_call. Qed.

Lemma reset_twice this w :
  (reset this;; reset this) w = reset this w.
Proof. compute_call. Qed.

Lemma ctor_copy_T_eq this value v w :
  heap w !! this = None -> T_copy value = inr v ->
  optional_ctor_copy_T this value w =
  Ret tt (World (<[this := Optional [v] true]> (heap w))
                (trace w ++ [EvNew this v])).
Proof. compute_call. Qed.

Lemma ctor_move_T_eq this value v r w :
  heap w !! this = None -> T_move value = inr (v, r) ->
  optional_ctor_move_T this value w =
  Ret r (World (<[this := Optional [v] true]> (heap w))
               (trace w ++ [EvNew this v])).
Proof. compute_call. Qed.

Lemma ctor_copy_engaged this other v v' w :
  heap w !! this = None ->
  heap w !! other = Some (Optional [v] true) ->
  T_copy v = inr v' ->
  optional_ctor_copy this other w =
  Ret tt (World (<[this := Optional [v'] true]> (heap w))
                (trace w ++ [EvNew this v'])).
Proof. compute_call. Qed.

Lemma ctor_copy_empty this other w :
  heap w !! this = None ->
  heap w !! other = Some (Optional [] false) ->
  optional_ctor_copy this other w =
  Ret tt (World (<[this := Optional [] false]> (heap w)) (trace w)).
Proof. compute_call. Qed.

Lemma ctor_move_engaged this other v v' r w :
  heap w !! this = None ->
  heap w !! other = Some (Optional [v] true) ->
  T_move v = inr (v', r) ->
  optional_ctor_move this other w =
  Ret tt (World (<[this := Optional [v'] true]>
                   (<[other := Optional [r] true]> (heap w)))
                (trace w ++ [EvNew this v'])).
Proof. compute_call. Qed.

Lemma assign_copy_T_engaged this value u u' w :
  heap w !! this = Some (Optional [u] true) ->
  T_assign u value = inr u' ->
  operator_assign_copy_T this value w =
  Ret this (World (<[this := Optional [u'] true]> (heap w)) (trace w)).
Proof. compute_call. Qed.

Lemma assign_copy_T_empty this value v w :
  heap w !! this = Some (Optional [] false) ->
  T_copy value = inr v ->
  operator_assign_copy_T this value w =
  Ret this (World (<[this := Optional [v] true]> (heap w))
                  (trace w ++ [EvNew this v])).
Proof. compute_call. Qed.

Lemma assign_move_T_engaged this value u u' r w :
  heap w !! this = Some (Optional [u] true) ->
  T_move_assign u value = inr (u', r) ->
  operator_assign_move_T this value w =
  Ret (this, r) (World (<[this := Optional [u'] true]> (heap w)) (trace w)).
Proof. compute_call. Qed.

Lemma assign_move_T_empty this value v r w :
  heap w !! this = Some (Optional [] false) ->
  T_move value = inr (v, r) ->
  operator_assign_move_T this value w =
  Ret (this, r) (World (<[this := Optional [v] true]> (heap w))
                       (trace w ++ [EvNew this v])).
Proof. compute_call. Qed.

Lemma assign_self this w :
  operator_assign_copy this this w = Ret this w /\
  operator_assign_move this this w = Ret this w.
Proof. split; compute_call. Qed.

Lemma assign_copy_from_empty_engaged this other u w :
  this <> other ->
  heap w !! other = Some (Optional [] false) ->
  heap w !! this = Some (Optional [u] true) ->
  operator_assign_copy this other w =
  Ret this (World (<[this := Optional [] false]> (heap w))
                  (trace w ++ [EvDel this u])).
Proof. compute_call. Qed.

Lemma assign_copy_from_empty_empty this other w :
  this <> other ->
  heap w !! other = Some (Optional [] false) ->
  heap w !! this = Some (Optional [] false) ->
  operator_assign_copy this other w = Ret this w.
Proof. compute_call. Qed.

Lemma assign_copy_both_engaged this other u u' v w :
  this <> other ->
  heap w !! other = Some (Optional [v] true) ->
  heap w !! this = Some (Optional [u] true) ->
  T_assign u v = inr u' ->
  operator_assign_copy this other w =
  Ret this (World (<[this := Optional [u'] true]> (heap w)) (trace w)).
Proof. compute_call. Qed.

Lemma assign_copy_into_empty this other v v' w :
  this <> other ->
  heap w !! other = Some (Optional [v] true) ->
  heap w !! this = Some (Optional [] false) ->
  T_copy v = inr v' ->
  operator_assign_copy this other w =
  Ret this (World (<[this := Optional [v'] true]> (heap w))
                  (trace w ++ [EvNew this v'])).
Proof. compute_call. Qed.

Lemma assign_move_from_empty_engaged this other u w :
  this <> other ->
  heap w !! other = Some (Optional [] false) ->
  heap w !! this = Some (Optional [u] true) ->
  operator_assign_move this other w =
  Ret this (World (<[this := Optional [] false]> (heap w))
                  (trace w ++ [EvDel this u])).
Proof. compute_call. Qed.

Lemma assign_move_from_empty_empty this other w :
  this <> other ->
  heap w !! other = Some (Optional [] false) ->
  heap w !! this = Some (Optional [] false) ->
  operator_assign_move this other w = Ret this w.
Proof. compute_call. Qed.

Lemma assign_move_both_engaged this other u u' v r w :
  this <> other ->
  heap w !! other = Some (Optional [v] true) ->
  heap w !! this = Some (Optional [u] true) ->
  T_move_assign u v = inr (u', r) ->
  operator_assign_move this other w =
  Ret this (World (<[this := Optional [u'] true]>
                     (<[other := Optional [r] true]> (heap w)))
                  (trace w)).
Proof. compute_call. Qed.

Lemma assign_move_into_empty this other v v' r w :
  this <> other ->
  heap w !! other = Some (Optional [v] true) ->
  heap w !! this = Some (Optional [] false) ->
  T_move v = inr (v', r) ->
  operator_assign_move this other w =
  Ret this (World (<[this := Optional [v'] true]>
                     (<[other := Optional [r] true]> (heap w)))
                  (trace w ++ [EvNew this v'])).
Proof. compute_call. Qed.

Lemma emplace_engaged_ok this args u v w :
  heap w !! this = Some (Optional [u] true) ->
  T_make args = inr v ->
  emplace this args w =
  Ret tt (World (<[this := Optional [v] true]> (heap w))
                (trace w ++ [EvDel this u; EvNew this v])).
Proof. compute_call. Qed.

Lemma emplace_empty_ok this args v w :
  heap w !! this = Some (Optional [] false) ->
  T_make args = inr v ->
  emplace this args w =
  Ret tt (World (<[this := Optional [v] true]> (heap w))
                (trace w ++ [EvNew this v])).
Proof. compute_call. Qed.

Lemma emplace_engaged_throws this args u e w :
  heap w !! this = Some (Optional [u] true) ->
  T_make args = inl e ->
  emplace this args w =
  Throw (T_exception e)
        (World (<[this := Optional [] false]> (heap w))
               (trace w ++ [EvDel this u])).
Proof. compute_call. Qed.

Lemma emplace_empty_throws this args e w :
  heap w !! this = Some (Optional [] false) ->
  T_make args = inl e ->
  emplace this args w = Throw (T_exception e) w.
Proof. compute_call. Qed.

Lemma dtor_engaged this v w :
  heap w !! this = Some (Optional [v] true) ->
  optional_dtor this w =
  Ret tt (World (delete this (heap w)) (trace w ++ [EvDel this v])).
Proof. compute_call. Qed.

Lemma dtor_empty this w :
  heap w !! this = Some (Optional [] false) ->
  optional_dtor this w = Ret tt (World (delete this (heap w)) (trace w)).
Proof. compute_call. Qed.

Lemma ctor_eq this w :
  heap w !! this = None ->
  optional_ctor this w =
  Ret tt (World (<[this := Optional [] false]> (heap w)) (trace w)).
Proof. compute_call. Qed.

Lemma only_value_raises c w w' :
  is_value c = false -> run c w <> Throw bad_optional_access w'.
Proof. destruct c; try done; intros _; compute_call. Qed.

Lemma run_frame c w a :
  a ∉ writes c ->
  match run c w with
  | Ret _ w' | Throw _ w' => heap w' !! a = heap w !! a
  | Terminate | Undefined => True
  end.
Proof.
  intros Ha. destruct w as [h tr].
  destruct c; simpl in Ha; rewrite ?not_elem_of_cons in Ha; destruct_and?;
    unfold_ops; crunch; split_lookups; done.
Qed.

(** ** The claims *)

(** C2.  On an optional that exists, [value()] (either overload) throws
    [bad_optional_access] exactly when the flag is clear; with the flag set
    it returns the reference [operator*] returns, through which, the buffer
    being as the invariant has it, the contained value is read; and no call
    other than [value()] ever ends in [bad_optional_access]. *)
Theorem value_raises_iff_empty (this : loc) (w : world) (o : optional) :
  heap w !! this = Some o ->
  ((exists w', value this w = Throw bad_optional_access w')
     <-> is_initialized_ o = false) /\
  ((exists w', value_const this w = Throw bad_optional_access w')
     <-> is_initialized_ o = false) /\
  (is_initialized_ o = true ->
   value this w = Ret (InBuffer this) w /\
   value_const this w = Ret (InBuffer this) w /\
   (storage_ok o ->
    exists v, data_ o = [v] /\ load (InBuffer this) w = Ret v w)) /\
  (forall c w0 w', is_value c = false ->
     run c w0 <> Throw bad_optional_access w').
Proof.
  intros Ho. destruct o as [d [|]]; simpl.
  - destruct (value_engaged this w d Ho) as [Hv Hc].
    repeat split; try done.
    + intros [w' Hw']. congruence.
    + intros [w' Hw']. congruence.
    + intros Hs. apply storage_ok_inv in Hs as [[_ [v ->]]|[? _]]; [|done].
      exists v. split; [done|by eapply load_eq].
    + intros c w0 w' Hc'. by apply only_value_raises.
  - destruct (value_empty this w d Ho) as [Hv Hc].
    repeat split; try done; eauto.
    intros c w0 w' Hc'. by apply only_value_raises.
Qed.

(** C3.  An optional constructed from a value [v], by copy or by move, holds
    the object the constructor of [T] built from [v] (a copy of [v]):
    [has_value()] is true and [value()] returns it. *)
Theorem construct_from_value (this : loc) (v v' : T) (w : world) :
  heap w !! this = None ->
  (T_copy v = inr v' ->
   exists w',
     optional_ctor_copy_T this v w = Ret tt w' /\
     has_value this w' = Ret true w' /\
     value this w' = Ret (InBuffer this) w' /\
     load (InBuffer this) w' = Ret v' w') /\
  (forall r, T_move v = inr (v', r) ->
   exists w',
     optional_ctor_move_T this v w = Ret r w' /\
     has_value this w' = Ret true w' /\
     value this w' = Ret (InBuffer this) w' /\
     load (InBuffer this) w' = Ret v' w').
Proof.
  intros Hthis. split.
  - intros Hc. eexists. split; [by apply ctor_copy_T_eq|].
    set (w' := World _ _).
    assert (heap w' !! this = Some (Optional [v'] true)) as Hw'
      by apply lookup_insert_eq.
    split; [by rewrite (has_value_eq _ _ _ Hw')|].
    split; [by apply (value_engaged _ _ _ Hw')|by eapply load_eq].
  - intros r Hm. eexists. split; [by apply ctor_move_T_eq|].
    set (w' := World _ _).
    assert (heap w' !! this = Some (Optional [v'] true)) as Hw'
      by apply lookup_insert_eq.
    split; [by rewrite (has_value_eq _ _ _ Hw')|].
    split; [by apply (value_engaged _ _ _ Hw')|by eapply load_eq].
Qed.

(** C4.  Move-constructing from an engaged optional leaves the destination
    engaged with the object [T]'s move constructor built, and the source
    still engaged: its flag is not cleared and its buffer still holds the
    moved-from object. *)
Theorem move_construct_keeps_source_engaged
    (this other : loc) (v v' r : T) (w : world) :
  heap w !! this = None ->
  heap w !! other = Some (Optional [v] true) ->
  T_move v = inr (v', r) ->
  exists w',
    optional_ctor_move this other w = Ret tt w' /\
    heap w' !! this = Some (Optional [v'] true) /\
    heap w' !! other = Some (Optional [r] true) /\
    has_value this w' = Ret true w' /\
    load (InBuffer this) w' = Ret v' w' /\
    has_value other w' = Ret true w'.
Proof.
  intros Hthis Hother Hm.
  assert (this <> other) as Hne by congruence.
  eexists. split; [by eapply ctor_move_engaged|].
  set (w' := World _ _).
  assert (heap w' !! this = Some (Optional [v'] true)) as Ht
    by apply lookup_insert_eq.
  assert (heap w' !! other = Some (Optional [r] true)) as Hs.
  { simpl. rewrite lookup_insert_ne by done. apply lookup_insert_eq. }
  repeat split; try done.
  - by rewrite (has_value_eq _ _ _ Ht).
  - by eapply load_eq.
  - by rewrite (has_value_eq _ _ _ Hs).
Qed.

(** C5.  [emplace] on a well-formed optional first runs the destructor of
    the contained object, if there is one, and only then constructs from the
    arguments: on success the optional is engaged with the new object; when
    the constructor of [T] throws, the exception leaves [emplace] and the
    optional is empty. *)
Theorem emplace_resets_then_constructs
    (this : loc) (args : Args) (w : world) (o : optional) :
  heap w !! this = Some o ->
  storage_ok o ->
  match T_make args with
  | inr v =>
      emplace this args w =
      Ret tt (World (<[this := Optional [v] true]> (heap w))
                    (trace w ++ (EvDel this <$> data_ o) ++ [EvNew this v]))
  | inl e =>
      exists w',
        emplace this args w = Throw (T_exception e) w' /\
        heap w' !! this = Some (Optional [] false) /\
        has_value this w' = Ret false w' /\
        trace w' = trace w ++ (EvDel this <$> data_ o)
  end.
Proof.
  intros Ho Hs. destruct o as [d b].
  apply storage_ok_inv in Hs as [[-> [u ->]]|[-> ->]]; simpl;
    destruct (T_make args) as [e|v] eqn:Hmake.
  - eexists. split; [by eapply emplace_engaged_throws|].
    set (w' := World _ _).
    assert (heap w' !! this = Some (Optional [] false)) as Hw'
      by apply lookup_insert_eq.
    repeat split; try done. by rewrite (has_value_eq _ _ _ Hw').
  - by eapply emplace_engaged_ok.
  - exists w. split; [by eapply emplace_empty_throws|].
    repeat split; try done.
    + by rewrite (has_value_eq _ _ _ Ho).
    + by rewrite app_nil_r.
  - by eapply emplace_empty_ok.
Qed.

(** C6.  Assigning a [T] to an engaged optional runs [T]'s assignment on the
    live object: no object is destroyed or constructed, the flag stays set
    and the buffer holds what the assignment left.  Assigning to an empty
    optional constructs a new object in the buffer and sets the flag. *)
Theorem assign_value (this : loc) (value : T) (w : world) :
  (forall u u',
     heap w !! this = Some (Optional [u] true) ->
     T_assign u value = inr u' ->
     operator_assign_copy_T this value w =
     Ret this (World (<[this := Optional [u'] true]> (heap w)) (trace w))) /\
  (forall u u' r,
     heap w !! this = Some (Optional [u] true) ->
     T_move_assign u value = inr (u', r) ->
     operator_assign_move_T this value w =
     Ret (this, r)
         (World (<[this := Optional [u'] true]> (heap w)) (trace w))) /\
  (forall v,
     heap w !! this = Some (Optional [] false) ->
     T_copy value = inr v ->
     operator_assign_copy_T this value w =
     Ret this (World (<[this := Optional [v] true]> (heap w))
                     (trace w ++ [EvNew this v]))) /\
  (forall v r,
     heap w !! this = Some (Optional [] false) ->
     T_move value = inr (v, r) ->
     operator_assign_move_T this value w =
     Ret (this, r)
         (World (<[this := Optional [v] true]> (heap w))
                (trace w ++ [EvNew this v]))).
Proof.
  repeat split; intros.
  - by eapply assign_copy_T_engaged.
  - by eapply assign_move_T_engaged.
  - by eapply assign_copy_T_empty.
  - by eapply assign_move_T_empty.
Qed.

(** C7.  Assignment from another optional, by copy or by move.  [a = a]
    changes nothing.  For distinct optionals: an empty source resets the
    target (the destructor runs when it was engaged); with both engaged
    [T]'s assignment runs on the target's live object; an engaged source and
    an empty target construct a new object in the target's buffer and set
    its flag.  A moved-from source stays engaged with what the move left. *)
Theorem assign_optional (a b : loc) (w : world) :
  (operator_assign_copy a a w = Ret a w /\
   operator_assign_move a a w = Ret a w) /\
  (a <> b ->
   (heap w !! b = Some (Optional [] false) ->
    (forall u,
       heap w !! a = Some (Optional [u] true) ->
       let w' := World (<[a := Optional [] false]> (heap w))
                       (trace w ++ [EvDel a u]) in
       operator_assign_copy a b w = Ret a w' /\
       operator_assign_move a b w = Ret a w') /\
    (heap w !! a = Some (Optional [] false) ->
       operator_assign_copy a b w = Ret a w /\
       operator_assign_move a b w = Ret a w)) /\
   (forall v,
      heap w !! b = Some (Optional [v] true) ->
      (forall u u',
         heap w !! a = Some (Optional [u] true) ->
         T_assign u v = inr u' ->
         operator_assign_copy a b w =
         Ret a (World (<[a := Optional [u'] true]> (heap w)) (trace w))) /\
      (forall u u' r,
         heap w !! a = Some (Optional [u] true) ->
         T_move_assign u v = inr (u', r) ->
         operator_assign_move a b w =
         Ret a (World (<[a := Optional [u'] true]>
                         (<[b := Optional [r] true]> (heap w)))
                      (trace w))) /\
      (forall v',
         heap w !! a = Some (Optional [] false) ->
         T_copy v = inr v' ->
         operator_assign_copy a b w =
         Ret a (World (<[a := Optional [v'] true]> (heap w))
                      (trace w ++ [EvNew a v']))) /\
      (forall v' r,
         heap w !! a = Some (Optional [] false) ->
         T_move v = inr (v', r) ->
         operator_assign_move a b w =
         Ret a (World (<[a := Optional [v'] true]>
                         (<[b := Optional [r] true]> (heap w)))
                      (trace w ++ [EvNew a v']))))).
Proof.
  split; [apply assign_self|].
  intros Hne. split.
  - intros Hb. split.
    + intros u Ha. split.
      * by eapply assign_copy_from_empty_engaged.
      * by eapply assign_move_from_empty_engaged.
    + intros Ha. split.
      * by eapply assign_copy_from_empty_empty.
      * by eapply assign_move_from_empty_empty.
  - intros v Hb. repeat split; intros.
    + by eapply assign_copy_both_engaged.
    + by eapply assign_move_both_engaged.
    + by eapply assign_copy_into_empty.
    + by eapply assign_move_into_empty.
Qed.

Lemma assign_through_eq this u lhs w :
  heap w !! this = Some (Optional [lhs] true) ->
  (p <- operator_star this;; assign_at p u) w =
  match T_assign lhs u with
  | inr lhs' =>
      Ret tt (World (<[this := Optional [lhs'] true]> (heap w)) (trace w))
  | inl (e, lhs') =>
      Throw (T_exception e)
            (World (<[this := Optional [lhs'] true]> (heap w)) (trace w))
  end.
Proof. compute_call. Qed.

(** C8.  Copy-constructing [b] from an engaged [a] leaves [b] engaged with
    the copy [T]'s copy constructor made of [a]'s object, in a buffer of its
    own: assigning through [*b] afterwards, or any call that does not write
    to [a], leaves [a]'s flag and object as they were.  Copy-constructing
    from an empty optional gives an empty optional. *)
Theorem copy_construct_independent (a b : loc) (w : world) :
  heap w !! b = None ->
  (forall v v',
     heap w !! a = Some (Optional [v] true) ->
     T_copy v = inr v' ->
     exists w1,
       optional_ctor_copy b a w = Ret tt w1 /\
       heap w1 !! b = Some (Optional [v'] true) /\
       heap w1 !! a = Some (Optional [v] true) /\
       (forall u, exists w2 u',
          ((p <- operator_star b;; assign_at p u) w1 = Ret tt w2 \/
           exists e, (p <- operator_star b;; assign_at p u) w1
                     = Throw (T_exception e) w2) /\
          heap w2 !! b = Some (Optional [u'] true) /\
          heap w2 !! a = Some (Optional [v] true)) /\
       (forall c, a ∉ writes c ->
          match run c w1 with
          | Ret _ w2 | Throw _ w2 => heap w2 !! a = Some (Optional [v] true)
          | Terminate | Undefined => True
          end)) /\
  (heap w !! a = Some (Optional [] false) ->
   optional_ctor_copy b a w =
   Ret tt (World (<[b := Optional [] false]> (heap w)) (trace w))).
Proof.
  intros Hb. split; [|by apply ctor_copy_empty].
  intros v v' Ha Hc.
  assert (b <> a) as Hne by congruence.
  eexists. split; [by eapply ctor_copy_engaged|].
  set (w1 := World _ _).
  assert (heap w1 !! b = Some (Optional [v'] true)) as Hb1
    by apply lookup_insert_eq.
  assert (heap w1 !! a = Some (Optional [v] true)) as Ha1.
  { simpl. by rewrite lookup_insert_ne. }
  repeat split; try done.
  - intros u. rewrite (assign_through_eq b u v' w1 Hb1).
    destruct (T_assign v' u) as [[e u']|u'].
    + eexists _, u'. split; [right; by exists e|]. simpl.
      by rewrite lookup_insert_eq, lookup_insert_ne.
    + eexists _, u'. split; [by left|]. simpl.
      by rewrite lookup_insert_eq, lookup_insert_ne.
  - intros c Hc'. pose proof (run_frame c w1 a Hc') as Hf.
    destruct (run c w1); try done; by rewrite Hf.
Qed.

(** C9.  [reset()] on a well-formed optional returns and leaves it empty:
    the flag is clear and the buffer raw, the destructor of the object that
    was there has run (once, and no other event), no other optional has
    changed, and [has_value()] is false.  On an empty optional it changes
    nothing; and a second [reset()] right after the first changes nothing
    more. *)
Theorem reset_idempotent (this : loc) (w : world) (o : optional) :
  heap w !! this = Some o ->
  storage_ok o ->
  (exists w',
     reset this w = Ret tt w' /\
     heap w' !! this = Some (Optional [] false) /\
     (forall l, l <> this -> heap w' !! l = heap w !! l) /\
     trace w' = trace w ++ (EvDel this <$> data_ o) /\
     has_value this w' = Ret false w' /\
     reset this w' = Ret tt w' /\
     (is_initialized_ o = false -> w' = w)) /\
  (reset this;; reset this) w = reset this w.
Proof.
  intros Ho Hs. split; [|apply reset_twice].
  destruct o as [d b].
  apply storage_ok_inv in Hs as [[-> [u ->]]|[-> ->]].
  - eexists. split; [by eapply reset_engaged|].
    set (w' := World _ _).
    assert (heap w' !! this = Some (Optional [] false)) as Hw'
      by apply lookup_insert_eq.
    split; [done|].
    split; [intros l Hl; simpl; by rewrite lookup_insert_ne|].
    split; [done|].
    split; [by rewrite (has_value_eq _ _ _ Hw')|].
    split; [by eapply reset_empty|done].
  - exists w. split; [by eapply reset_empty|].
    split; [done|]. split; [done|].
    split; [simpl; by rewrite app_nil_r|].
    split; [by rewrite (has_value_eq _ _ _ Ho)|].
    split; [by eapply reset_empty|done].
Qed.

(** C10.  [value()] on an empty optional throws [bad_optional_access] from
    the very world it was called in: the store and the trace are the same,
    so the optional is still empty and no object was constructed or
    destroyed. *)
Theorem value_empty_atomic (this : loc) (w : world) (o : optional) :
  heap w !! this = Some o ->
  is_initialized_ o = false ->
  value this w = Throw bad_optional_access w /\
  value_const this w = Throw bad_optional_access w /\
  has_value this w = Ret false w.
Proof.
  intros Ho Hb. destruct o as [d b]. simpl in Hb. subst b.
  destruct (value_empty this w d Ho) as [Hv Hc].
  repeat split; try done. by rewrite (has_value_eq _ _ _ Ho).
Qed.

(** ** Further properties of the member functions *)

(** X1.  The destructor of a well-formed optional returns; it runs the
    destructor of the contained object when there is one, exactly once, and
    gives the storage of the optional back, so that an optional can be
    constructed there again. *)
Theorem destructor_destroys_once (this : loc) (w : world) (o : optional) :
  heap w !! this = Some o ->
  storage_ok o ->
  optional_dtor this w =
  Ret tt (World (delete this (heap w))
                (trace w ++ (EvDel this <$> data_ o))) /\
  callable (Ctor this)
    (World (delete this (heap w)) (trace w ++ (EvDel this <$> data_ o))).
Proof.
  intros Ho Hs. destruct o as [d b].
  apply storage_ok_inv in Hs as [[-> [u ->]]|[-> ->]]; simpl.
  - split; [by apply dtor_engaged|apply lookup_delete_eq].
  - split; [|apply lookup_delete_eq].
    rewrite app_nil_r. by apply dtor_empty.
Qed.

(** X2.  An optional constructed on free storage and destroyed right away
    leaves the store as it was: the default constructor builds no object at
    all, and a value or copy constructor builds one object that the
    destructor destroys. *)
Theorem construct_destroy_round_trip (this : loc) (w : world) :
  heap w !! this = None ->
  (optional_ctor this;; optional_dtor this) w = Ret tt w /\
  (forall value v,
     T_copy value = inr v ->
     (optional_ctor_copy_T this value;; optional_dtor this) w =
     Ret tt (World (heap w) (trace w ++ [EvNew this v; EvDel this v]))) /\
  (forall value v r,
     T_move value = inr (v, r) ->
     (_ <- optional_ctor_move_T this value;; optional_dtor this) w =
     Ret tt (World (heap w) (trace w ++ [EvNew this v; EvDel this v]))) /\
  (forall other u v,
     heap w !! other = Some (Optional [u] true) ->
     T_copy u = inr v ->
     (optional_ctor_copy this other;; optional_dtor this) w =
     Ret tt (World (heap w) (trace w ++ [EvNew this v; EvDel this v]))).
Proof.
  intros Hthis. repeat split; compute_call.
Qed.

(** X3.  When the copy constructor of [T] throws inside
    [optional(const T&)] or [optional(const optional&)], the exception
    leaves the constructor and nothing else has happened: no optional
    exists at [this], the source is as it was, and no object was
    constructed. *)
Theorem copy_construct_throw_leaves_nothing
    (this : loc) (v : T) (e : E) (w : world) :
  heap w !! this = None ->
  T_copy v = inl e ->
  optional_ctor_copy_T this v w = Throw (T_exception e) w /\
  (forall other,
     heap w !! other = Some (Optional [v] true) ->
     optional_ctor_copy this other w = Throw (T_exception e) w).
Proof.
  intros Hthis Hc. split; [|intros other Hother]; compute_call.
Qed.

(** X4.  The three members declared [noexcept] that move a [T] call
    [std::terminate] when that move throws: the move constructor from a
    [T], the move constructor from an engaged optional, and the move
    assignment from an engaged optional, into an empty target (move
    constructor of [T]) as into an engaged one (move assignment of [T]). *)
Theorem noexcept_move_terminates (this : loc) (v : T) (w : world) :
  (forall e r,
     heap w !! this = None ->
     T_move v = inl (e, r) ->
     optional_ctor_move_T this v w = Terminate /\
     (forall other,
        heap w !! other = Some (Optional [v] true) ->
        optional_ctor_move this other w = Terminate)) /\
  (forall other e r,
     this <> other ->
     heap w !! other = Some (Optional [v] true) ->
     heap w !! this = Some (Optional [] false) ->
     T_move v = inl (e, r) ->
     operator_assign_move this other w = Terminate) /\
  (forall other u e p,
     this <> other ->
     heap w !! other = Some (Optional [v] true) ->
     heap w !! this = Some (Optional [u] true) ->
     T_move_assign u v = inl (e, p) ->
     operator_assign_move this other w = Terminate).
Proof.
  repeat split; compute_call.
Qed.

(** X5.  A throwing [T] inside an assignment from a value, which is not
    [noexcept]: the exception leaves the operator.  An empty optional stays
    empty and the store is untouched (the flag is set only after the
    construction); an engaged one stays engaged, with the object as [T]'s
    assignment left it, and nothing is constructed or destroyed. *)
Theorem assign_value_throw (this : loc) (value : T) (e : E) (w : world) :
  (heap w !! this = Some (Optional [] false) ->
   (T_copy value = inl e ->
    operator_assign_copy_T this value w = Throw (T_exception e) w) /\
   (forall r, T_move value = inl (e, r) ->
    operator_assign_move_T this value w = Throw (T_exception e) w)) /\
  (forall u,
     heap w !! this = Some (Optional [u] true) ->
     (forall u', T_assign u value = inl (e, u') ->
      operator_assign_copy_T this value w =
      Throw (T_exception e)
            (World (<[this := Optional [u'] true]> (heap w)) (trace w))) /\
     (forall u' r, T_move_assign u value = inl (e, (u', r)) ->
      operator_assign_move_T this value w =
      Throw (T_exception e)
            (World (<[this := Optional [u'] true]> (heap w)) (trace w)))).
Proof.
  repeat split; compute_call.
Qed.

(** X6.  A throwing [T] inside the copy assignment from an engaged
    optional: the exception leaves the operator, the source is untouched,
    an empty target stays empty with the store as it was, and an engaged
    target stays engaged with the object as [T]'s assignment left it. *)
Theorem assign_optional_copy_throw
    (this other : loc) (v : T) (e : E) (w : world) :
  this <> other ->
  heap w !! other = Some (Optional [v] true) ->
  (heap w !! this = Some (Optional [] false) ->
   T_copy v = inl e ->
   operator_assign_copy this other w = Throw (T_exception e) w) /\
  (forall u u',
     heap w !! this = Some (Optional [u] true) ->
     T_assign u v = inl (e, u') ->
     operator_assign_copy this other w =
     Throw (T_exception e)
           (World (<[this := Optional [u'] true]> (heap w)) (trace w))).
Proof.
  intros Hne Hother. split; compute_call.
Qed.

(** X7.  The unchecked accessors ([operator*] and [operator->], every
    overload) test nothing: each returns the address of the buffer and
    leaves the world alone, whatever the flag.  On a well-formed engaged
    optional reading through it gives what [value()] gives; on an empty one
    [value()] throws while the read through the unchecked result is
    undefined. *)
Theorem unchecked_access (this : loc) (w : world) :
  Forall (fun access => access this w = Ret (InBuffer this) w)
         unchecked_accessors /\
  (forall v,
     heap w !! this = Some (Optional [v] true) ->
     Forall (fun access =>
               (p <- access this;; load p) w = Ret v w /\
               (p <- access this;; load p) w = (p <- value this;; load p) w)
            unchecked_accessors) /\
  (heap w !! this = Some (Optional [] false) ->
   Forall (fun access =>
             (p <- access this;; load p) w = Undefined /\
             (p <- value this;; load p) w = Throw bad_optional_access w)
          unchecked_accessors).
Proof.
  unfold unchecked_accessors. split; [|split].
  - repeat constructor.
  - intros v Hv. repeat constructor; compute_call.
  - intros Hv. repeat constructor; compute_call.
Qed.

Lemma replay_counts l b b' (tr : list event) :
  replay l b tr = Some b' ->
  (if b then 1 else 0) + constructions l tr
  = destructions l tr + (if b' then 1 else 0).
Proof.
  revert b. induction tr as [|[l' v|l' v] tr IH]; intros b; simpl.
  - intros [= ->]. lia.
  - case_decide.
    + destruct b; [done|]. intros Hr. apply IH in Hr. simpl in *. lia.
    + intros Hr. apply IH in Hr. lia.
  - case_decide.
    + destruct b; [|done]. intros Hr. apply IH in Hr. simpl in *. lia.
    + intros Hr. apply IH in Hr. lia.
Qed.

(** X8.  In every world a client can reach through the public interface,
    each buffer has seen exactly as many constructions as destructions,
    plus one if an engaged optional lives there now: nothing leaks when an
    optional is destroyed, reset, emplaced into or assigned to, and nothing
    is destroyed twice. *)
Theorem lifetimes_balance (w : world) (l : loc) :
  reachable w ->
  constructions l (trace w)
  = destructions l (trace w) + (if flag_at w l then 1 else 0).
Proof.
  intros Hr. apply reachable_Inv in Hr. destruct (Hr l) as [_ Hl].
  by apply replay_counts in Hl.
Qed.

(** X9.  A call constructs and destroys objects in the buffer of its own
    optional only, and of any other optional it changes neither the
    existence, nor the flag, nor the number of objects in the buffer: a
    copy reads its source, and a move leaves its source engaged with one
    object, never destroying it. *)
Theorem call_touches_only_this (c : call) (w : world) :
  match run c w with
  | Ret _ w' | Throw _ w' =>
      (exists evs, trace w' = trace w ++ evs /\
                   Forall (fun e => event_loc e = this_of c) evs) /\
      (forall l, l <> this_of c ->
                 shape <$> heap w' !! l = shape <$> heap w !! l)
  | Terminate | Undefined => True
  end.
Proof.
  destruct w as [h tr].
  destruct c; unfold_ops; crunch; destruct_objects;
    (split;
     [ eexists; split;
       [ rewrite <- ?app_assoc; first [reflexivity | symmetry; apply app_nil_r]
       | repeat constructor ]
     | intros ? ?; simpl in *; split_lookups;
       repeat match goal with
       | H : ?m !! ?x = _ |- context [?m !! ?x] => rewrite H
       end; try done ]).
Qed.

(** Uses the assumption that an operation of [T] does not throw against a
    case in which it did. *)
Ltac refute_throw :=
  match goal with
  | Hn : forall v, exists p, T_move v = inr p, H : T_move ?v = inl _ |- _ =>
      destruct (Hn v); congruence
  | Hn : forall l r, exists p, T_move_assign l r = inr p,
    H : T_move_assign ?l ?r = inl _ |- _ =>
      destruct (Hn l r); congruence
  | Hn : forall v, exists p, T_copy v = inr p, H : T_copy ?v = inl _ |- _ =>
      destruct (Hn v); congruence
  | Hn : forall a, exists p, T_make a = inr p, H : T_make ?a = inl _ |- _ =>
      destruct (Hn a); congruence
  | Hn : forall l r, exists p, T_assign l r = inr p,
    H : T_assign ?l ?r = inl _ |- _ =>
      destruct (Hn l r); congruence
  end.

(** X10.  The default constructor, [reset()], the destructor,
    [has_value()] and the unchecked accessors cannot fail: called on
    optionals that exist (on free storage, for the constructor) in a
    well-formed world, each returns, whatever [T] is. *)
Theorem nothrow_members_return (c : call) (w : world) :
  Inv w ->
  callable c w ->
  nothrow c = true ->
  exists w', run c w = Ret tt w'.
Proof.
  intros HI Hc Hn. destruct w as [h tr].
  destruct c; try done; simpl in Hc; unfold is_Some in Hc;
    repeat match goal with H : exists _, _ |- _ => destruct H end;
    unfold_ops; crunch; destruct_objects; saturate HI; eauto.
Qed.

(** X11.  With an element type whose move constructor and move assignment
    do not throw, no call ever ends in [std::terminate]: the [noexcept] on
    the move constructors and the move assignment is then kept. *)
Theorem no_terminate_when_moves_nothrow (c : call) (w : world) :
  T_moves_nothrow ->
  run c w <> Terminate.
Proof.
  intros [Hmove Hmove_assign]. destruct w as [h tr].
  destruct c; unfold_ops; crunch; refute_throw.
Qed.

(** X12.  With an element type none of whose operations throws, [value()]
    is the only member that can fail: in a well-formed world every other
    call on optionals that exist returns. *)
Theorem only_value_can_fail (c : call) (w : world) :
  T_never_throws ->
  Inv w ->
  callable c w ->
  is_value c = false ->
  exists w', run c w = Ret tt w'.
Proof.
  intros [[Hmove Hmove_assign] (Hcopy & Hmake & Hassign)] HI Hc Hv.
  destruct w as [h tr].
  destruct c; try done; simpl in Hc; unfold is_Some in Hc; destruct_and?;
    repeat match goal with H : exists _, _ |- _ => destruct H end;
    unfold_ops; crunch; destruct_objects; saturate HI;
    first [refute_throw | eauto].
Qed.

(** X13.  Copying never writes to its source: after the copy constructor
    or the copy assignment, returned or thrown out of, the optional copied
    from is exactly as it was, flag and object. *)
Theorem copy_leaves_source (this other : loc) (w : world) :
  this <> other ->
  match optional_ctor_copy this other w with
  | Ret _ w' | Throw _ w' => heap w' !! other = heap w !! other
  | Terminate | Undefined => True
  end /\
  match operator_assign_copy this other w with
  | Ret _ w' | Throw _ w' => heap w' !! other = heap w !! other
  | Terminate | Undefined => True
  end.
Proof.
  intros Hne. split.
  - apply (run_frame (CtorCopy this other) w other).
    simpl. rewrite not_elem_of_cons. split; [done|apply not_elem_of_nil].
  - pose proof (run_frame (AssignCopy this other) w other) as Hf.
    simpl in Hf. unfold discard, bind, ret in Hf.
    destruct (operator_assign_copy this other w); try done;
      apply Hf; rewrite not_elem_of_cons; split; try done; apply not_elem_of_nil.
Qed.

(** X14.  What is written is what is read next.  On a well-formed
    optional, engaged or empty, [value()] right after a successful
    [emplace] reads the object the constructor of [T] built, right after a
    successful assignment from a value it reads what [T]'s assignment (on
    an engaged optional) or copy constructor (on an empty one) produced,
    and right after [reset()] it throws. *)
Theorem write_then_read (this : loc) (w : world) (o : optional) :
  heap w !! this = Some o ->
  storage_ok o ->
  (forall args v,
     T_make args = inr v ->
     exists w', (emplace this args;; p <- value this;; load p) w = Ret v w') /\
  (forall rhs v,
     match data_ o with
     | u :: _ => T_assign u rhs = inr v
     | [] => T_copy rhs = inr v
     end ->
     exists w',
       (_ <- operator_assign_copy_T this rhs;; p <- value this;; load p) w
       = Ret v w') /\
  (exists w', (reset this;; value this) w = Throw bad_optional_access w').
Proof.
  destruct w as [h tr]. intros Ho Hs. destruct o as [d b].
  apply storage_ok_inv in Hs as [[-> [u ->]]|[-> ->]]; simpl in *;
    repeat split; intros; eexists; unfold_ops; use_hyps; crunch.
Qed.

End Optional.

Arguments Ret {T E A} a w.
Arguments Throw {T E A} x w.
Arguments Terminate {T E A}.
Arguments Undefined {T E A}.

(** * [bmstu::optional<int>] *)
Module IntOptional.

(** [int]: copying and assigning copy the value, moving leaves the source as
    it was, nothing throws. *)
#[local] Instance int_T : TypeT Z Z Empty_set := {|
  T_copy v := inr v;
  T_move v := inr (v, v);
  T_make a := inr a;
  T_assign _ rhs := inr rhs;
  T_move_assign _ rhs := inr (rhs, rhs)
|}.

#[local] Abbreviation ok := (@Ret Z Empty_set _).
#[local] Abbreviation thrown := (@Throw Z Empty_set _).
#[local] Open Scope Z_scope.

Definition start : world (T:=Z) := World ∅ [].

(** [optional<int> a;] at address 1 *)
Definition none : world (T:=Z) :=
  World (<[1%positive := Optional [] false]> ∅) [].

(** [optional<int> a(5);] at address 1 *)
Definition five : world (T:=Z) :=
  World (<[1%positive := Optional [5] true]> ∅) [EvNew 1%positive 5].

(** [optional<int> a(5), b(9);] at addresses 1 and 2 *)
Definition five_nine : world (T:=Z) :=
  World (<[2%positive := Optional [9] true]>
           (<[1%positive := Optional [5] true]> ∅))
        [EvNew 1%positive 5; EvNew 2%positive 9].

(** The scenario that closes the specification's list of properties:
    [optional<int> a;  a = 5;  a.reset();  a.value();  a.emplace(7);]. *)
Example scenario_ctor :
  optional_ctor 1 start = ok tt none /\ has_value 1 none = ok false none.
Proof. split; reflexivity. Qed.

Example scenario_assign :
  operator_assign_copy_T 1 5 none = ok 1%positive five /\
  has_value 1 five = ok true five /\
  bind (operator_star 1) load five = ok 5 five.
Proof. repeat split; reflexivity. Qed.

Definition after_reset : world (T:=Z) :=
  World (<[1%positive := Optional [] false]> ∅)
        [EvNew 1%positive 5; EvDel 1%positive 5].

Example scenario_reset :
  reset 1 five = ok tt after_reset /\
  has_value 1 after_reset = ok false after_reset /\
  value 1 after_reset = thrown bad_optional_access after_reset.
Proof. repeat split; reflexivity. Qed.

Example scenario_emplace :
  exists w,
    emplace 1 7 after_reset = ok tt w /\
    bind (operator_star 1) load w = ok 7 w.
Proof. eexists. split; reflexivity. Qed.

Lemma reachable_five : reachable five.
Proof.
  apply (reach_ret (CtorCopyT 1 5) start); [apply reach_start|reflexivity].
Qed.

Lemma emplace_on_five_witness :
  Inv five /\
  (callable (Emplace 1 7) five -> run (Emplace 1 7) five <> Undefined) /\
  match run (Emplace 1 7) five with
  | Ret _ w' | Throw _ w' => Inv w' /\ never_twice (trace w')
  | Terminate | Undefined => True
  end.
Proof.
  pose proof (reachable_Inv five reachable_five) as HI.
  split; [exact HI|exact (optional_invariant (Emplace 1 7) five HI)].
Defined.

Lemma value_on_none_witness :
  heap none !! 1%positive = Some (Optional [] false) /\
  exists w', value 1 none = thrown bad_optional_access w'.
Proof.
  split; [reflexivity|].
  apply (proj1 (value_raises_iff_empty 1 none (Optional [] false) eq_refl)).
  reflexivity.
Defined.

Lemma construct_five_witness :
  heap start !! 1%positive = None /\
  exists w',
    optional_ctor_copy_T 1 5 start = ok tt w' /\
    has_value 1 w' = ok true w' /\
    value 1 w' = ok (InBuffer 1) w' /\
    load (InBuffer 1) w' = ok 5 w'.
Proof.
  split; [reflexivity|].
  exact (proj1 (construct_from_value 1 5 5 start eq_refl) eq_refl).
Defined.

Lemma assign_seven_witness :
  heap five !! 1%positive = Some (Optional [5] true) /\
  operator_assign_copy_T 1 7 five =
  ok 1%positive
     (World (<[1%positive := Optional [7] true]> (heap five)) (trace five)).
Proof.
  split; [reflexivity|].
  exact (proj1 (assign_value 1 7 five) 5 7 eq_refl eq_refl).
Defined.

Lemma assign_optional_witness :
  1%positive <> 2%positive /\
  operator_assign_copy 1 2 five_nine =
  ok 1%positive
     (World (<[1%positive := Optional [9] true]> (heap five_nine))
            (trace five_nine)).
Proof.
  split; [done|].
  destruct (assign_optional 1 2 five_nine) as [_ Hcases].
  destruct (Hcases ltac:(done)) as [_ Hengaged].
  exact (proj1 (Hengaged 9 eq_refl) 5 9 eq_refl eq_refl).
Defined.

Lemma copy_five_witness :
  heap five !! 2%positive = None /\
  exists w1,
    optional_ctor_copy 2 1 five = ok tt w1 /\
    heap w1 !! 2%positive = Some (Optional [5] true) /\
    heap w1 !! 1%positive = Some (Optional [5] true) /\
    exists w2 u',
      (bind (operator_star 2) (fun p => assign_at p 8) w1 = ok tt w2 \/
       exists e, bind (operator_star 2) (fun p => assign_at p 8) w1
                 = thrown (T_exception e) w2) /\
      heap w2 !! 2%positive = Some (Optional [u'] true) /\
      heap w2 !! 1%positive = Some (Optional [5] true).
Proof.
  split; [reflexivity|].
  destruct (copy_construct_independent 1 2 five eq_refl) as [Hengaged _].
  destruct (Hengaged 5 5 eq_refl eq_refl) as (w1 & Hrun & Hb & Ha & Hmut & _).
  exists w1. split; [exact Hrun|]. split; [exact Hb|]. split; [exact Ha|].
  exact (Hmut 8).
Defined.

Lemma reset_five_witness :
  heap five !! 1%positive = Some (Optional [5] true) /\
  storage_ok (Optional [5] true) /\
  (exists w',
     reset 1 five = ok tt w' /\
     heap w' !! 1%positive = Some (Optional [] false) /\
     (forall l, l <> 1%positive -> heap w' !! l = heap five !! l) /\
     trace w' = trace five ++ [EvDel 1%positive 5] /\
     has_value 1 w' = ok false w' /\
     reset 1 w' = ok tt w' /\
     (true = false -> w' = five)) /\
  bind (E:=Empty_set) (reset 1) (fun _ => reset 1) five = reset 1 five.
Proof.
  split; [reflexivity|]. split; [apply storage_ok_one|].
  exact (reset_idempotent 1 five _ eq_refl (storage_ok_one 5)).
Defined.

Lemma value_none_atomic_witness :
  heap none !! 1%positive = Some (Optional [] false) /\
  value 1 none = thrown bad_optional_access none /\
  value_const 1 none = thrown bad_optional_access none /\
  has_value 1 none = ok false none.
Proof.
  split; [reflexivity|].
  exact (value_empty_atomic 1 none (Optional [] false) eq_refl eq_refl).
Defined.

End IntOptional.

(** * [bmstu::optional<std::vector<int>>] *)
Module VectorOptional.

Inductive length_error := LengthError.

(** [std::vector<int>]: a moved-from vector is empty, and the constructor
    [vector(count)] throws on a count it cannot allocate (here: a negative
    one). *)
#[local] Instance vector_T : TypeT (list Z) Z length_error := {|
  T_copy v := inr v;
  T_move v := inr (v, []);
  T_make count :=
    if (count <? 0)%Z then inl LengthError
    else inr (replicate (Z.to_nat count) 0%Z);
  T_assign _ rhs := inr rhs;
  T_move_assign _ rhs := inr (rhs, [])
|}.

#[local] Abbreviation ok := (@Ret (list Z) length_error _).
#[local] Abbreviation thrown := (@Throw (list Z) length_error _).
#[local] Open Scope Z_scope.

(** [optional<vector<int>> a(vector<int>{1, 2, 3});] at address 1 *)
Definition one_two_three : world (T:=list Z) :=
  World (<[1%positive := Optional [[1; 2; 3]] true]> ∅)
        [EvNew 1%positive [1; 2; 3]].

Lemma move_construct_witness :
  heap one_two_three !! 2%positive = None /\
  heap one_two_three !! 1%positive = Some (Optional [[1; 2; 3]] true) /\
  exists w',
    optional_ctor_move 2 1 one_two_three = ok tt w' /\
    heap w' !! 2%positive = Some (Optional [[1; 2; 3]] true) /\
    heap w' !! 1%positive = Some (Optional [[]] true) /\
    has_value 2 w' = ok true w' /\
    load (InBuffer 2) w' = ok [1; 2; 3] w' /\
    has_value 1 w' = ok true w'.
Proof.
  split; [reflexivity|]. split; [reflexivity|].
  exact (move_construct_keeps_source_engaged 2 1 [1; 2; 3] [1; 2; 3] []
           one_two_three eq_refl eq_refl eq_refl).
Defined.

Lemma emplace_throws_witness :
  heap one_two_three !! 1%positive = Some (Optional [[1; 2; 3]] true) /\
  storage_ok (Optional [[1; 2; 3]] true) /\
  exists w',
    emplace 1 (-1) one_two_three = thrown (T_exception LengthError) w' /\
    heap w' !! 1%positive = Some (Optional [] false) /\
    has_value 1 w' = ok false w' /\
    trace w' = trace one_two_three ++ [EvDel 1%positive [1; 2; 3]].
Proof.
  split; [reflexivity|]. split; [apply storage_ok_one|].
  exact (emplace_resets_then_constructs 1 (-1) one_two_three _ eq_refl
           (storage_ok_one [1; 2; 3])).
Defined.

Example emplace_two :
  emplace 1 2 one_two_three =
  ok tt (World (<[1%positive := Optional [[0; 0]] true]> ∅)
               [EvNew 1%positive [1; 2; 3]; EvDel 1%positive [1; 2; 3];
                EvNew 1%positive [0; 0]]).
Proof. reflexivity. Qed.

End VectorOptional.

(** * An element type that throws *)
Module FragileOptional.

Inductive negative := Negative.

(** A class over [int] that refuses negative values: copying, moving or
    assigning from a negative object throws, and a moved-from object
    holds 0.  Its constructor from an [int] takes any value. *)
#[local] Instance fragile_T : TypeT Z Z negative := {|
  T_copy v := if (v <? 0)%Z then inl Negative else inr v;
  T_move v := if (v <? 0)%Z then inl (Negative, v) else inr (v, 0%Z);
  T_make a := inr a;
  T_assign lhs rhs := if (rhs <? 0)%Z then inl (Negative, lhs) else inr rhs;
  T_move_assign lhs rhs :=
    if (rhs <? 0)%Z then inl (Negative, (lhs, rhs)) else inr (rhs, 0%Z)
|}.

#[local] Abbreviation thrown := (@Throw Z negative _).
#[local] Open Scope Z_scope.

Definition start : world (T:=Z) := World ∅ [].

(** An empty optional at address 1. *)
Definition none : world (T:=Z) :=
  World (<[1%positive := Optional [] false]> ∅) [].

(** An optional at address 1 emplaced with -1. *)
Definition minus_one : world (T:=Z) :=
  World (<[1%positive := Optional [-1] true]> ∅) [EvNew 1%positive (-1)].

(** Optionals at addresses 1 and 2, the first emplaced with -1. *)
Definition minus_one_none : world (T:=Z) :=
  World (<[2%positive := Optional [] false]>
           (<[1%positive := Optional [-1] true]> ∅))
        [EvNew 1%positive (-1)].

Definition minus_one_four : world (T:=Z) :=
  World (<[2%positive := Optional [4] true]>
           (<[1%positive := Optional [-1] true]> ∅))
        [EvNew 1%positive (-1); EvNew 2%positive 4].

Lemma copy_construct_throw_witness :
  heap start !! 1%positive = None /\
  optional_ctor_copy_T 1 (-1) start = thrown (T_exception Negative) start.
Proof.
  split; [reflexivity|].
  apply (copy_construct_throw_leaves_nothing 1 (-1) Negative start);
    reflexivity.
Defined.

Lemma noexcept_move_witness :
  heap minus_one !! 2%positive = None /\
  optional_ctor_move_T 2 (-1) minus_one = Terminate /\
  optional_ctor_move 2 1 minus_one = Terminate.
Proof.
  split; [reflexivity|].
  destruct (noexcept_move_terminates 2 (-1) minus_one) as [Hfresh _].
  destruct (Hfresh Negative (-1)) as [Hvalue Hoptional]; [reflexivity..|].
  split; [exact Hvalue|apply Hoptional; reflexivity].
Defined.

Lemma assign_value_throw_witness :
  heap none !! 1%positive = Some (Optional [] false) /\
  operator_assign_copy_T 1 (-1) none = thrown (T_exception Negative) none.
Proof.
  split; [reflexivity|].
  destruct (assign_value_throw 1 (-1) Negative none) as [Hempty _].
  apply Hempty; reflexivity.
Defined.

Lemma assign_optional_copy_throw_witness :
  2%positive <> 1%positive /\
  heap minus_one_four !! 1%positive = Some (Optional [-1] true) /\
  heap minus_one_four !! 2%positive = Some (Optional [4] true) /\
  operator_assign_copy 2 1 minus_one_four =
  thrown (T_exception Negative)
         (World (<[2%positive := Optional [4] true]> (heap minus_one_four))
                (trace minus_one_four)).
Proof.
  split; [done|]. split; [reflexivity|]. split; [reflexivity|].
  destruct (assign_optional_copy_throw 2 1 (-1) Negative minus_one_four)
    as [_ Hengaged]; [done|reflexivity|].
  apply (Hengaged 4 4); reflexivity.
Defined.

End FragileOptional.

(** * More of [bmstu::optional<int>] *)
Module IntOptionalMore.

#[local] Existing Instance IntOptional.int_T.
#[local] Abbreviation ok := (@Ret Z Empty_set _).
#[local] Abbreviation thrown := (@Throw Z Empty_set _).
#[local] Open Scope Z_scope.

Import IntOptional.

Lemma int_never_throws : T_never_throws (T:=Z) (Args:=Z) (E:=Empty_set).
Proof. repeat split; intros; eexists; reflexivity. Qed.

Lemma destructor_witness :
  heap five !! 1%positive = Some (Optional [5] true) /\
  storage_ok (Optional [5] true) /\
  optional_dtor 1 five =
  ok tt (World (delete 1%positive (heap five))
               (trace five ++ [EvDel 1%positive 5])).
Proof.
  split; [reflexivity|]. split; [apply storage_ok_one|].
  exact (proj1 (destructor_destroys_once (Args:=Z) 1 five _ eq_refl
                  (storage_ok_one 5))).
Defined.

Lemma round_trip_witness :
  heap start !! 1%positive = None /\
  bind (E:=Empty_set) (optional_ctor 1) (fun _ => optional_dtor 1) start
  = ok tt start.
Proof.
  split; [reflexivity|].
  exact (proj1 (construct_destroy_round_trip 1 start eq_refl)).
Defined.

Lemma unchecked_access_witness :
  heap none !! 1%positive = Some (Optional [] false) /\
  Forall (fun access =>
            bind (access 1%positive) load none = Undefined /\
            bind (value 1) load none = thrown bad_optional_access none)
         (unchecked_accessors (T:=Z) (E:=Empty_set)).
Proof.
  split; [reflexivity|].
  exact (proj2 (proj2 (unchecked_access 1 none)) eq_refl).
Defined.

Lemma lifetimes_balance_witness :
  reachable five /\
  constructions 1 (trace five) = (destructions 1 (trace five) + 1)%nat.
Proof.
  split; [exact reachable_five|].
  exact (lifetimes_balance five 1 reachable_five).
Defined.

Lemma nothrow_reset_witness :
  Inv five /\
  callable (Reset (Args:=Z) 1) five /\
  nothrow (Reset (T:=Z) (Args:=Z) 1) = true /\
  exists w', run (Reset 1) five = ok tt w'.
Proof.
  pose proof (reachable_Inv five reachable_five) as HI.
  assert (callable (Reset (Args:=Z) 1) five) as Hc by (by eexists).
  split; [exact HI|]. split; [exact Hc|]. split; [reflexivity|].
  exact (nothrow_members_return (Reset 1) five HI Hc eq_refl).
Defined.

Lemma no_terminate_witness :
  T_moves_nothrow (T:=Z) (Args:=Z) (E:=Empty_set) /\
  run (CtorMove 2 1) five <> Terminate.
Proof.
  split; [exact (proj1 int_never_throws)|].
  exact (no_terminate_when_moves_nothrow (CtorMove 2 1) five
           (proj1 int_never_throws)).
Defined.

Lemma only_value_can_fail_witness :
  T_never_throws (T:=Z) (Args:=Z) (E:=Empty_set) /\
  Inv five /\
  callable (Emplace 1 7) five /\
  exists w', run (Emplace 1 7) five = ok tt w'.
Proof.
  pose proof (reachable_Inv five reachable_five) as HI.
  assert (callable (Emplace 1 7) five) as Hc by (by eexists).
  split; [exact int_never_throws|]. split; [exact HI|]. split; [exact Hc|].
  exact (only_value_can_fail (Emplace 1 7) five int_never_throws HI Hc eq_refl).
Defined.

Lemma copy_leaves_source_witness :
  2%positive <> 1%positive /\
  match optional_ctor_copy 2 1 five with
  | Ret _ w' | Throw _ w' => heap w' !! 1%positive = heap five !! 1%positive
  | Terminate | Undefined => True
  end.
Proof.
  split; [done|].
  exact (proj1 (copy_leaves_source 2 1 five ltac:(done))).
Defined.

Lemma write_then_read_witness :
  heap five !! 1%positive = Some (Optional [5] true) /\
  storage_ok (Optional [5] true) /\
  exists w',
    bind (emplace 1 7) (fun _ => bind (value 1) load) five = ok 7 w'.
Proof.
  split; [reflexivity|]. split; [apply storage_ok_one|].
  exact (proj1 (write_then_read 1 five _ eq_refl (storage_ok_one 5))
           7 7 eq_refl).
Defined.

End IntOptionalMore.
